(** * RooFit::Detail::CodeSquashContext

    A shallow embedding of the context that RooFit uses to squash a
    computation graph into flat source code
    (roofit/roofitcore/inc/RooFit/Detail/CodeSquashContext.h), and the
    properties of it that the specification states.

    The header defines the data members, [outputSize], [addToCodeBody], the
    inline [addResult] overload, [buildCall], the [buildArg] and [buildArgs]
    overloads and [LoopScope].  The other member functions are only declared
    there; their bodies are modelled from the specification and marked so. *)

From stdpp Require Import base numbers option list strings pretty gmap.

Local Open Scope Z_scope.

(** ** Strings *)

(** [std::string] is modelled by [string]; [+:+] is concatenation. *)

Fixpoint str_take (n : nat) (s : string) : string :=
  match n, s with
  | S n', String x s' => String x (str_take n' s')
  | _, _ => ""
  end.

Fixpoint str_drop (n : nat) (s : string) : string :=
  match n, s with
  | S n', String _ s' => str_drop n' s'
  | _, _ => s
  end.

(** [s.insert(pos, t)] of [std::string]: [t] is placed in front of the
    character at offset [pos]; an offset beyond the end is an error
    ([std::out_of_range] in C++). *)
Definition str_insert (pos : nat) (t s : string) : option string :=
  if decide (pos ≤ String.length s)%nat
  then Some (str_take pos s +:+ t +:+ str_drop pos s)
  else None.

(** [join sep l]: the elements of [l] with [sep] between neighbours. *)
Fixpoint join (sep : string) (l : list string) : string :=
  match l with
  | [] => ""
  | [x] => x
  | x :: l' => x +:+ sep +:+ join sep l'
  end.

(** ** Data model *)

(** A node identity handle is the address of the node's interned name, a
    [TNamed const *]; [RooFit::Detail::DataKey] wraps the same pointer.  A
    node ([RooAbsArg]) is identified with the handle [namePtr()] returns. *)
Abbreviation TNamedPtr := N (only parsing).
Abbreviation DataKey := N (only parsing).

(** [RooFit::UniqueId<RooAbsCollection>::Value_t]. *)
Abbreviation UniqueId := N (only parsing).

(** A [RooListProxy] / [RooAbsCollection]: its identity and its members in
    order. *)
Record RooListProxy := {
  uniqueId : UniqueId;
  members : list TNamedPtr
}.

(** The data members of the class, in the order of the header.  [int] members
    are integers (signed overflow is undefined in C++ and not modelled),
    [std::size_t] values are naturals. *)
Record CodeSquashContext := {
  _nodeNames : gmap TNamedPtr string;
  _globalScope : string;
  _vecObsIndices : gmap TNamedPtr Z;
  _nodeOutputSizes : gmap DataKey N;
  _code : string;
  _loopLevel : Z;
  _tmpVarIdx : Z;
  _scopePtr : Z;
  _tempScope : string;
  listNames : gmap UniqueId string
}.

(** The constructor copies the table of output sizes; every other member has
    its default member initialiser. *)
Definition newCodeSquashContext (outputSizes : gmap DataKey N)
  : CodeSquashContext :=
  {| _nodeNames := ∅;
     _globalScope := "";
     _vecObsIndices := ∅;
     _nodeOutputSizes := outputSizes;
     _code := "";
     _loopLevel := 0;
     _tmpVarIdx := 0;
     _scopePtr := -1;
     _tempScope := "";
     listNames := ∅ |}.

Definition outputSize (ctx : CodeSquashContext) (key : DataKey) : N :=
  match _nodeOutputSizes ctx !! key with
  | Some found => found
  | None => 1%N
  end.

(** ** Errors and the monad of member functions *)

(** The conditions of the specification's error taxonomy. *)
Inductive error := NotFound | ScopeLeak.

(** A member function runs on the context and either returns a value or
    throws; in both cases the context is left as mutated so far, which is what
    a destructor that runs during unwinding sees. *)
Inductive outcome (A : Type) :=
  | Ok (a : A) (ctx : CodeSquashContext)
  | Err (e : error) (ctx : CodeSquashContext).
Arguments Ok {A} a ctx.
Arguments Err {A} e ctx.

Definition M (A : Type) := CodeSquashContext → outcome A.

Definition ret {A} (a : A) : M A := λ ctx, Ok a ctx.
Definition throw {A} (e : error) : M A := λ ctx, Err e ctx.
Definition bind {A B} (m : M A) (f : A → M B) : M B :=
  λ ctx, match m ctx with
         | Ok a ctx' => f a ctx'
         | Err e ctx' => Err e ctx'
         end.
Definition get : M CodeSquashContext := λ ctx, Ok ctx ctx.
Definition modify (f : CodeSquashContext → CodeSquashContext) : M unit :=
  λ ctx, Ok tt (f ctx).

Notation "'let*' x ':=' m 'in' k" := (bind m (λ x, k))
  (at level 10, x name, m at level 100, k at level 200,
   format "'[v' 'let*'  x  ':='  m  'in'  '/' k ']'").

(** The context an outcome leaves behind. *)
Definition ctx_of {A} (o : outcome A) : CodeSquashContext :=
  match o with Ok _ ctx | Err _ ctx => ctx end.

(** Field updates. *)
Definition set_nodeNames f (c : CodeSquashContext) :=
  {| _nodeNames := f (_nodeNames c); _globalScope := _globalScope c;
     _vecObsIndices := _vecObsIndices c; _nodeOutputSizes := _nodeOutputSizes c;
     _code := _code c; _loopLevel := _loopLevel c; _tmpVarIdx := _tmpVarIdx c;
     _scopePtr := _scopePtr c; _tempScope := _tempScope c;
     listNames := listNames c |}.
Definition set_globalScope f (c : CodeSquashContext) :=
  {| _nodeNames := _nodeNames c; _globalScope := f (_globalScope c);
     _vecObsIndices := _vecObsIndices c; _nodeOutputSizes := _nodeOutputSizes c;
     _code := _code c; _loopLevel := _loopLevel c; _tmpVarIdx := _tmpVarIdx c;
     _scopePtr := _scopePtr c; _tempScope := _tempScope c;
     listNames := listNames c |}.
Definition set_vecObsIndices f (c : CodeSquashContext) :=
  {| _nodeNames := _nodeNames c; _globalScope := _globalScope c;
     _vecObsIndices := f (_vecObsIndices c);
     _nodeOutputSizes := _nodeOutputSizes c;
     _code := _code c; _loopLevel := _loopLevel c; _tmpVarIdx := _tmpVarIdx c;
     _scopePtr := _scopePtr c; _tempScope := _tempScope c;
     listNames := listNames c |}.
Definition set_code f (c : CodeSquashContext) :=
  {| _nodeNames := _nodeNames c; _globalScope := _globalScope c;
     _vecObsIndices := _vecObsIndices c; _nodeOutputSizes := _nodeOutputSizes c;
     _code := f (_code c); _loopLevel := _loopLevel c;
     _tmpVarIdx := _tmpVarIdx c;
     _scopePtr := _scopePtr c; _tempScope := _tempScope c;
     listNames := listNames c |}.
Definition set_loopLevel f (c : CodeSquashContext) :=
  {| _nodeNames := _nodeNames c; _globalScope := _globalScope c;
     _vecObsIndices := _vecObsIndices c; _nodeOutputSizes := _nodeOutputSizes c;
     _code := _code c; _loopLevel := f (_loopLevel c);
     _tmpVarIdx := _tmpVarIdx c;
     _scopePtr := _scopePtr c; _tempScope := _tempScope c;
     listNames := listNames c |}.
Definition set_tmpVarIdx f (c : CodeSquashContext) :=
  {| _nodeNames := _nodeNames c; _globalScope := _globalScope c;
     _vecObsIndices := _vecObsIndices c; _nodeOutputSizes := _nodeOutputSizes c;
     _code := _code c; _loopLevel := _loopLevel c;
     _tmpVarIdx := f (_tmpVarIdx c);
     _scopePtr := _scopePtr c; _tempScope := _tempScope c;
     listNames := listNames c |}.
Definition set_scopePtr f (c : CodeSquashContext) :=
  {| _nodeNames := _nodeNames c; _globalScope := _globalScope c;
     _vecObsIndices := _vecObsIndices c; _nodeOutputSizes := _nodeOutputSizes c;
     _code := _code c; _loopLevel := _loopLevel c; _tmpVarIdx := _tmpVarIdx c;
     _scopePtr := f (_scopePtr c); _tempScope := _tempScope c;
     listNames := listNames c |}.
Definition set_tempScope f (c : CodeSquashContext) :=
  {| _nodeNames := _nodeNames c; _globalScope := _globalScope c;
     _vecObsIndices := _vecObsIndices c; _nodeOutputSizes := _nodeOutputSizes c;
     _code := _code c; _loopLevel := _loopLevel c; _tmpVarIdx := _tmpVarIdx c;
     _scopePtr := _scopePtr c; _tempScope := f (_tempScope c);
     listNames := listNames c |}.
Definition set_listNames f (c : CodeSquashContext) :=
  {| _nodeNames := _nodeNames c; _globalScope := _globalScope c;
     _vecObsIndices := _vecObsIndices c; _nodeOutputSizes := _nodeOutputSizes c;
     _code := _code c; _loopLevel := _loopLevel c; _tmpVarIdx := _tmpVarIdx c;
     _scopePtr := _scopePtr c; _tempScope := _tempScope c;
     listNames := f (listNames c) |}.

(** ** Collaborators

    What the context takes from its surroundings.  None of it is defined in
    the header, so the embedding is parametric in it. *)

(** The text of the statements that the member functions without a body in
    the header emit; the specification leaves the target syntax to the
    caller and the toolchain.  [tmpVarBase] is the base name that temporaries
    suffix with a counter.  [vecObsAccess idx level] is the expression that
    reads the input column [idx] at the index of the loop that is innermost
    when [level] loops are open. *)
Class Target := {
  tmpVarBase : string;
  assignStmt : string → string → string;
  arrayInitStmt : string → list string → string;
  loopHeaderStmt : Z → N → list TNamedPtr → string;
  loopCloseStmt : string;
  returnStmt : string → string;
  vecObsAccess : Z → Z → string
}.

(** The surrounding framework: the floating-point type and
    [RooNumber::toString], the dependence of a node on a vector observable
    ([RooAbsArg::dependsOn]), the name registry that resolves a [const char *]
    key to the handle, and the two decisions of [saveAsTemp] that the
    specification names without saying how they are taken: whether the
    computation of a node depends on a loop variable that is active in the
    context, and whether a name supplied by the caller is unique. *)
Class Framework := {
  double : Type;
  RooNumber_toString : double → string;
  dependsOn : TNamedPtr → TNamedPtr → bool;
  namePtrOf : string → TNamedPtr;
  dependsOnLoopVar : CodeSquashContext → TNamedPtr → bool;
  nameIsUnique : CodeSquashContext → string → bool
}.

(** C++ leaves the order in which the two operands of [+] are evaluated to
    the compiler; [buildArgs] has side effects in both operands. *)
Class Compiler := { evalLeftToRight : bool }.

(** [CodeSquashContext::LoopScope]: the loop variables it owns.  The
    reference [_ctx] is the one context of the run. *)
Record LoopScope := { vars : list TNamedPtr }.

(** Modelled from the spec: a scope object as the context gets hold of it.
    [beginLoop] hands the scope out through [std::unique_ptr<LoopScope>] and
    [endLoop] receives it by reference, so both have the object itself and
    not only its loop variables.  The specification makes the destruction of
    a scope out of nested order a violation that the context reports, so the
    context has to tell a scope from those opened around it; the header has
    no data member for that, and the model lets the reference carry the
    identity of the object: [depth], the loop level at which the scope was
    opened, which no two scopes that are open together share. *)
Record ScopeRef := { target : LoopScope; depth : Z }.

(** The kinds of argument [buildCall] accepts, one per [buildArg] overload. *)
Inductive Arg `{Framework} :=
  | ArgDouble (x : double)
  | ArgInt (x : Z)
  | ArgUInt (x : N)
  | ArgULong (x : N)
  | ArgString (x : string)
  | ArgCollection (x : RooListProxy)
  | ArgAbsArg (arg : TNamedPtr)
  | ArgProxy (arg : TNamedPtr).

Section Members.
Context {tgt : Target} {fw : Framework} {cc : Compiler}.

(** *** Result registry *)

(** Modelled from the spec: the body of the private overload
    [addResult(TNamed const *, std::string const &)] is missing; the result
    registry maps the handle to the expression, a later record replaces an
    earlier one. *)
Definition addResult_TNamed (key : TNamedPtr) (value : string) : M unit :=
  modify (set_nodeNames (λ m, <[key := value]> m)).

(** Modelled from the spec: the body of [addResult(const char *, ...)] is
    missing; the string key resolves to the same table as the pointer key. *)
Definition addResult_cstr (key : string) (value : string) : M unit :=
  addResult_TNamed (namePtrOf key) value.

(** Modelled from the spec: the expression that stands for a node at a
    lookup.  A node registered by [addVecObs] resolves, while a loop is open,
    to the indexed access to its input column at the loop index in scope and
    not to an entry of the registry (spec 4.5).  With no loop open there is
    no loop index to resolve against, and for every other node, the
    expression is the one recorded in the registry, if any. *)
Definition resolve (ctx : CodeSquashContext) (arg : TNamedPtr)
  : option string :=
  match _vecObsIndices ctx !! arg with
  | Some idx =>
      if bool_decide (0 < _loopLevel ctx)
      then Some (vecObsAccess idx (_loopLevel ctx))
      else _nodeNames ctx !! arg
  | None => _nodeNames ctx !! arg
  end.

(** Modelled from the spec: the body of [getResult] is missing; it returns
    the expression that the node resolves to and fails with [NotFound] for a
    node that was never visited. *)
Definition getResult (arg : TNamedPtr) : M string :=
  let* ctx := get in
  match resolve ctx arg with
  | Some found => ret found
  | None => throw NotFound
  end.

(** *** Buffers *)

Definition addToCodeBody (in_ : string) : M unit :=
  modify (set_code (λ code, code +:+ in_)).

(** Modelled from the spec: the body of [addToGlobalScope] is missing; the
    global scope buffer is append-only. *)
Definition addToGlobalScope (str : string) : M unit :=
  modify (set_globalScope (λ g, g +:+ str)).

(** Modelled from the spec: the body of [addVecObs] is missing; it registers
    the node as the input column [idx]. *)
Definition addVecObs (key : string) (idx : Z) : M unit :=
  modify (set_vecObsIndices (λ m, <[namePtrOf key := idx]> m)).

(** Modelled from the spec: the body of [assembleCode] is missing; global
    scope, then code body, then the return statement; it fails while a loop
    scope is open. *)
Definition assembleCode (returnExpr : string) : M string :=
  let* ctx := get in
  if bool_decide (0 < _loopLevel ctx) then throw ScopeLeak
  else ret (_globalScope ctx +:+ _code ctx +:+ returnStmt returnExpr).

(** *** Temporaries *)

(** Modelled from the spec: the body of [getTmpVarName] is missing; a base
    name suffixed with the counter [_tmpVarIdx], which is then advanced. *)
Definition getTmpVarName : M string :=
  let* ctx := get in
  let* _ := modify (set_tmpVarIdx (λ i, i + 1)) in
  ret (tmpVarBase +:+ pretty (_tmpVarIdx ctx)).

(** Modelled from the spec: the name of a variable that [saveAsTemp] or
    [saveListAsArray] declares is the name the caller proposes if that is
    non-empty and unique, else a fresh temporary. *)
Definition allocName (name : string) : M string :=
  let* ctx := get in
  if negb (String.eqb name "") && nameIsUnique ctx name
  then ret name else getTmpVarName.

(** Modelled from the spec: the body of [saveAsTemp] is missing.  The
    variable is named by [allocName]; the assignment goes to the temp-scope
    buffer when a loop is open and the computation depends on no active loop
    variable, else to the code body; the variable name is returned. *)
Definition saveAsTemp (in_ : TNamedPtr) (valueToSave : string) (name : string)
  : M string :=
  let* ctx := get in
  let* savedName := allocName name in
  let* _ :=
    (if bool_decide (0 < _loopLevel ctx) && negb (dependsOnLoopVar ctx in_)
     then modify (set_tempScope (λ t, t +:+ assignStmt savedName valueToSave))
     else addToCodeBody (assignStmt savedName valueToSave)) in
  ret savedName.

(** The inline overload of the header: the value is saved as a temporary and
    the name that [saveAsTemp] returns is what the registry records. *)
Definition addResult (key : TNamedPtr) (value : string) : M unit :=
  let* saved := saveAsTemp key value "" in
  addResult_TNamed key saved.

(** *** Lists *)

(** The expressions that the nodes of a list resolve to, if all do. *)
Fixpoint lookupAll (ctx : CodeSquashContext) (l : list TNamedPtr)
  : option (list string) :=
  match l with
  | [] => Some []
  | k :: l' =>
      match resolve ctx k, lookupAll ctx l' with
      | Some y, Some ys => Some (y :: ys)
      | _, _ => None
      end
  end.

Fixpoint mapM {A B} (f : A → M B) (l : list A) : M (list B) :=
  match l with
  | [] => ret []
  | x :: l' =>
      let* y := f x in
      let* ys := mapM f l' in
      ret (y :: ys)
  end.

(** Modelled from the spec: the body of [saveListAsArray] is missing.  A
    collection that already has an array returns the cached name; otherwise a
    name is allocated by [allocName], the initialiser with the result of each
    member in order, looked up by [getResult], is emitted, and the name is
    cached under the identity of the collection. *)
Definition saveListAsArray (in_ : RooListProxy) (name : string) : M string :=
  let* ctx := get in
  match listNames ctx !! uniqueId in_ with
  | Some cached => ret cached
  | None =>
      let* savedName := allocName name in
      let* elems := mapM getResult (members in_) in
      let* _ := addToCodeBody (arrayInitStmt savedName elems) in
      let* _ :=
        modify (set_listNames (λ m, <[uniqueId in_ := savedName]> m)) in
      ret savedName
  end.

(** *** Loops *)

(** Modelled from the spec: the loop variables of a node are the vector
    observables that it depends on. *)
Definition loopVarsOf (ctx : CodeSquashContext) (in_ : TNamedPtr)
  : list TNamedPtr :=
  List.filter (dependsOn in_) (map fst (map_to_list (_vecObsIndices ctx))).

(** Modelled from the spec: the body of [beginLoop] is missing.  The
    outermost loop records the length of the code body as the splice
    pointer; the level is incremented; the loop header, which runs up to the
    output size of the node and binds the loop variables, is emitted; the
    scope that owns the loop variables is returned.  The scope is opened at
    the level that the call found. *)
Definition beginLoop (in_ : TNamedPtr) : M ScopeRef :=
  let* ctx := get in
  let loopVars := loopVarsOf ctx in_ in
  let* _ :=
    (if bool_decide (_loopLevel ctx = 0)
     then modify (set_scopePtr (λ _, Z.of_nat (String.length (_code ctx))))
     else ret tt) in
  let* _ := modify (set_loopLevel (λ l, l + 1)) in
  let* _ :=
    addToCodeBody
      (loopHeaderStmt (_loopLevel ctx) (outputSize ctx in_) loopVars) in
  ret {| target := {| vars := loopVars |}; depth := _loopLevel ctx |}.

(** Modelled from the spec: the body of [endLoop] is missing.  The closing
    statement is emitted and the level decremented; when the level is back at
    0 the temp-scope buffer is spliced into the code body at the splice
    pointer, the buffer is cleared and the pointer invalidated.  Releasing a
    scope while no loop is open, releasing a scope other than the one opened
    last among the open ones (out of nested order, or once more after its
    release), or splicing at an invalid pointer, is the contract violation
    [ScopeLeak]. *)
Definition endLoop (scope : ScopeRef) : M unit :=
  let* ctx := get in
  if bool_decide (_loopLevel ctx ≤ 0) then throw ScopeLeak
  else if negb (bool_decide (depth scope = _loopLevel ctx - 1))
  then throw ScopeLeak
  else
    let* _ := addToCodeBody loopCloseStmt in
    let* _ := modify (set_loopLevel (λ l, l - 1)) in
    if bool_decide (_loopLevel ctx - 1 = 0) then
      let* ctx' := get in
      match
        (if bool_decide (0 ≤ _scopePtr ctx')
         then str_insert (Z.to_nat (_scopePtr ctx'))
                (_tempScope ctx') (_code ctx')
         else None)
      with
      | Some code' =>
          modify (λ c, set_scopePtr (λ _, -1)
                         (set_tempScope (λ _, "")
                            (set_code (λ _, code') c)))
      | None => throw ScopeLeak
      end
    else ret tt.

(** *** Calls *)

Definition buildArg (x : Arg) : M string :=
  match x with
  | ArgDouble x => ret (RooNumber_toString x)
  | ArgInt x => ret (pretty x)
  | ArgUInt x => ret (pretty x)
  | ArgULong x => ret (pretty x)
  | ArgString x => ret x
  | ArgCollection x => saveListAsArray x ""
  | ArgAbsArg arg => getResult arg
  | ArgProxy arg => getResult arg
  end.

(** The three [buildArgs] overloads: no argument, one argument, and one
    argument followed by more. *)
Fixpoint buildArgs (args : list Arg) : M string :=
  match args with
  | [] => ret ""
  | [arg] => buildArg arg
  | arg :: args' =>
      if evalLeftToRight then
        let* x := buildArg arg in
        let* y := buildArgs args' in
        ret ((x +:+ ", ") +:+ y)
      else
        let* y := buildArgs args' in
        let* x := buildArg arg in
        ret ((x +:+ ", ") +:+ y)
  end.

Definition buildCall (funcname : string) (args : list Arg) : M string :=
  let* a := buildArgs args in
  ret (funcname +:+ "(" +:+ a +:+ ")").

End Members.

(** ** Runs

    A compilation run is a sequence of calls of the public member functions
    by the caller. *)

(** The public member functions other than [beginLoop] and the release of a
    scope ([outputSize] is [const] and has no effect on the context). *)
Inductive call `{Framework} :=
  | CAddResult (key : TNamedPtr) (value : string)
  | CAddResultName (key : string) (value : string)
  | CGetResult (arg : TNamedPtr)
  | CAddToGlobalScope (str : string)
  | CAssembleCode (returnExpr : string)
  | CAddVecObs (key : string) (idx : Z)
  | CAddToCodeBody (in_ : string)
  | CBuildCall (funcname : string) (args : list Arg)
  | CGetTmpVarName
  | CSaveAsTemp (in_ : TNamedPtr) (valueToSave : string) (name : string)
  | CSaveListAsArray (in_ : RooListProxy) (name : string).

(** What a caller does to the context: a call of a member function,
    [beginLoop], or the destruction of a scope, which runs [endLoop] on it.
    The caller owns the scopes through [std::unique_ptr] and may destroy them
    in any order; [LoopScope] also has a public constructor, so the scope
    that is destroyed need not come from [beginLoop]. *)
Inductive op `{Framework} :=
  | OCall (c : call)
  | OBeginLoop (in_ : TNamedPtr)
  | OEndLoop (scope : ScopeRef).

(** What one step of a run adds to the buffers: the text that a call appends
    to the code body and to the temp-scope buffer, the header of a loop, the
    closing statement of a loop. *)
Inductive emission :=
  | EmCall (body hoisted : string)
  | EmBegin (header : string)
  | EmEnd (close : string).

(** Where the emitted text belongs in the generated function: [lay_placed]
    is the text in its final place, [lay_hoisted] the statements hoisted out
    of the outermost loop that is open, [lay_inloop] the text of that loop
    from its header on, [lay_open] the number of open loops. *)
Record layout := {
  lay_placed : string;
  lay_hoisted : string;
  lay_inloop : string;
  lay_open : nat
}.

(** The layout that the specification describes, without offsets: outside of
    loops text is placed in call order; the text of a loop is collected from
    its header on, the hoisted statements apart; when the outermost loop
    closes, the hoisted statements are placed, then the loop. *)
Definition lay_step (l : layout) (e : emission) : layout :=
  match e with
  | EmCall b h =>
      match lay_open l with
      | O => {| lay_placed := lay_placed l +:+ b;
                lay_hoisted := lay_hoisted l +:+ h;
                lay_inloop := lay_inloop l; lay_open := O |}
      | S _ => {| lay_placed := lay_placed l;
                  lay_hoisted := lay_hoisted l +:+ h;
                  lay_inloop := lay_inloop l +:+ b; lay_open := lay_open l |}
      end
  | EmBegin hd =>
      {| lay_placed := lay_placed l; lay_hoisted := lay_hoisted l;
         lay_inloop := lay_inloop l +:+ hd; lay_open := S (lay_open l) |}
  | EmEnd cl =>
      match lay_open l with
      | O => l
      | S O => {| lay_placed := lay_placed l +:+ lay_hoisted l +:+
                                lay_inloop l +:+ cl;
                  lay_hoisted := ""; lay_inloop := ""; lay_open := O |}
      | S n => {| lay_placed := lay_placed l; lay_hoisted := lay_hoisted l;
                  lay_inloop := lay_inloop l +:+ cl; lay_open := n |}
      end
  end.

Definition lay_out (l : layout) (es : list emission) : layout :=
  foldl lay_step l es.

(** The layout of a context in which no loop is open. *)
Definition lay_of (ctx : CodeSquashContext) : layout :=
  {| lay_placed := _code ctx; lay_hoisted := _tempScope ctx;
     lay_inloop := ""; lay_open := O |}.

Section Runs.
Context {tgt : Target} {fw : Framework} {cc : Compiler}.

Definition discard {A} (m : M A) : M unit := let* _ := m in ret tt.

Definition exec_call (c : call) : M unit :=
  match c with
  | CAddResult key value => addResult key value
  | CAddResultName key value => addResult_cstr key value
  | CGetResult arg => discard (getResult arg)
  | CAddToGlobalScope str => addToGlobalScope str
  | CAssembleCode returnExpr => discard (assembleCode returnExpr)
  | CAddVecObs key idx => addVecObs key idx
  | CAddToCodeBody in_ => addToCodeBody in_
  | CBuildCall funcname args => discard (buildCall funcname args)
  | CGetTmpVarName => discard getTmpVarName
  | CSaveAsTemp in_ valueToSave name =>
      discard (saveAsTemp in_ valueToSave name)
  | CSaveListAsArray in_ name => discard (saveListAsArray in_ name)
  end.

Definition exec (o : op) : M unit :=
  match o with
  | OCall c => exec_call c
  | OBeginLoop in_ => discard (beginLoop in_)
  | OEndLoop scope => endLoop scope
  end.

(** The calls in order; the run ends at the first one that throws.  For
    [endLoop], which runs in the destructor of a scope, this is the end of
    the program: the destructor is implicitly [noexcept]. *)
Fixpoint run (ops : list op) : M unit :=
  match ops with
  | [] => ret tt
  | o :: ops' => let* _ := exec o in run ops'
  end.



(** Every release in a run is of the scope opened last among those still
    open: [n] loops are open, at the depths below [n], and the result is the
    number of loops open at the end. *)
Fixpoint nested (n : nat) (ops : list op) : option nat :=
  match ops with
  | [] => Some n
  | OCall _ :: ops' => nested n ops'
  | OBeginLoop _ :: ops' => nested (S n) ops'
  | OEndLoop scope :: ops' =>
      match n with
      | O => None
      | S m =>
          if bool_decide (depth scope = Z.of_nat m) then nested m ops'
          else None
      end
  end.

(** What a step of a run emits: for a call, the text by which it extends the
    code body and the temp-scope buffer. *)
Definition emission_of (o : op) (ctx : CodeSquashContext) : emission :=
  match o with
  | OCall k =>
      let ctx' := ctx_of (exec_call k ctx) in
      EmCall (str_drop (String.length (_code ctx)) (_code ctx'))
             (str_drop (String.length (_tempScope ctx)) (_tempScope ctx'))
  | OBeginLoop in_ =>
      EmBegin (loopHeaderStmt (_loopLevel ctx) (outputSize ctx in_)
                 (loopVarsOf ctx in_))
  | OEndLoop _ => EmEnd loopCloseStmt
  end.

Fixpoint emissions (ops : list op) (ctx : CodeSquashContext)
  : list emission :=
  match ops with
  | [] => []
  | o :: ops' => emission_of o ctx :: emissions ops' (ctx_of (exec o ctx))
  end.


(** The records that a run makes in the result registry, in order: the
    handle and the string that [addResult] stores for it. *)
Definition recorded (o : op) (ctx : CodeSquashContext)
  : option (TNamedPtr * string) :=
  match o with
  | OCall (CAddResult key value) =>
      match saveAsTemp key value "" ctx with
      | Ok saved _ => Some (key, saved)
      | Err _ _ => None
      end
  | OCall (CAddResultName key value) => Some (namePtrOf key, value)
  | _ => None
  end.

Fixpoint records (ops : list op) (ctx : CodeSquashContext)
  : list (TNamedPtr * string) :=
  match ops with
  | [] => []
  | o :: ops' =>
      match recorded o ctx with
      | Some r => r :: records ops' (ctx_of (exec o ctx))
      | None => records ops' (ctx_of (exec o ctx))
      end
  end.

(** The string recorded last for [key] in a list of records. *)
Fixpoint last_recorded (key : TNamedPtr) (l : list (TNamedPtr * string))
  : option string :=
  match l with
  | [] => None
  | (k, v) :: l' =>
      match last_recorded key l' with
      | Some v' => Some v'
      | None => if bool_decide (k = key) then Some v else None
      end
  end.

(** The names that [n] successive calls of [getTmpVarName] return. *)
Fixpoint tmpVarNames (n : nat) (ctx : CodeSquashContext) : list string :=
  match n with
  | O => []
  | S n' =>
      match getTmpVarName ctx with
      | Ok name ctx' => name :: tmpVarNames n' ctx'
      | Err _ _ => []
      end
  end.

End Runs.

(** ** A concrete target

    C-like statement texts and a framework in which a node depends on a
    loop variable unless its output size is 1, used to evaluate the
    definitions on examples. *)

Definition example_target : Target :=
  {| tmpVarBase := "t";
     assignStmt := λ name value,
       "const double " +:+ name +:+ " = " +:+ value +:+ ";";
     arrayInitStmt := λ name elems,
       "double " +:+ name +:+ "[] = {" +:+ join "," elems +:+ "};";
     loopHeaderStmt := λ level size _,
       "for(int i" +:+ pretty level +:+ " = 0; i" +:+ pretty level +:+ " < "
       +:+ pretty size +:+ "; i" +:+ pretty level +:+ "++) {";
     loopCloseStmt := "}";
     returnStmt := λ e, "return " +:+ e +:+ ";";
     vecObsAccess := λ idx level,
       "obs[" +:+ pretty idx +:+ "][i" +:+ pretty (level - 1) +:+ "]" |}.

Definition example_framework : Framework :=
  {| double := Z;
     RooNumber_toString := λ x, pretty x +:+ ".0";
     dependsOn := λ _ _, true;
     namePtrOf := λ s, Npos (encode s);
     dependsOnLoopVar := λ ctx k, negb (outputSize ctx k =? 1)%N;
     nameIsUnique := λ _ _, true |}.

Definition example_compiler : Compiler := {| evalLeftToRight := true |}.

(** The text an outcome returns, if it returns. *)
Definition text_of (o : outcome string) : option string :=
  match o with Ok s _ => Some s | Err _ _ => None end.

Section Example.
Local Existing Instances example_target example_framework example_compiler.

(** Nodes 1 and 3 are vectors of 100 entries, every other node is scalar. *)
Definition ex_sizes : gmap DataKey N := {[ 1%N := 100%N; 3%N := 100%N ]}.

(** A sum over the entries of node 1 with a nested loop over node 3; inside
    the nested loop the scalar node 2 is saved as a temporary. *)
Definition ex_c0 : CodeSquashContext :=
  ctx_of (run [OCall (CAddToCodeBody "double s = 0;")]
            (newCodeSquashContext ex_sizes)).
Definition ex_ops1 : list op :=
  [OCall (CAddToCodeBody "s += x[i0];"); OBeginLoop 3%N].
Definition ex_inner : ScopeRef :=
  {| target := {| vars := [] |}; depth := 1 |}.
Definition ex_ops2 : list op :=
  [OCall (CAddToCodeBody "s += t0;"); OEndLoop ex_inner].
Definition ex_scope : ScopeRef :=
  {| target := {| vars := [] |}; depth := 0 |}.
(** After the loops, more code and a second loop. *)
Definition ex_ops3 : list op :=
  [OCall (CAddToCodeBody "s *= 2;"); OBeginLoop 3%N;
   OCall (CSaveAsTemp 4%N "c" ""); OEndLoop ex_scope].
Definition ex_ops : list op :=
  [OCall (CAddToCodeBody "double s = 0;"); OBeginLoop 1%N] ++ ex_ops1 ++
  [OCall (CSaveAsTemp 2%N "a*b" "")] ++ ex_ops2 ++ [OEndLoop ex_scope] ++
  ex_ops3.
Definition ex_final : CodeSquashContext :=
  ctx_of (run ex_ops (newCodeSquashContext ex_sizes)).

(** The same run, call by call. *)
Definition ex_c1 : CodeSquashContext := ctx_of (beginLoop 1%N ex_c0).
Definition ex_c2 : CodeSquashContext := ctx_of (run ex_ops1 ex_c1).
Definition ex_c3 : CodeSquashContext :=
  ctx_of (saveAsTemp 2%N "a*b" "" ex_c2).
Definition ex_c4 : CodeSquashContext := ctx_of (run ex_ops2 ex_c3).
Definition ex_c5 : CodeSquashContext := ctx_of (endLoop ex_scope ex_c4).
Definition ex_c6 : CodeSquashContext := ctx_of (run ex_ops3 ex_c5).

(** Three records for the node named [ab], the second through the inline
    [addResult]. *)
Definition ex_ab : TNamedPtr := namePtrOf "ab".
Definition ex_rec_ops : list op :=
  [OCall (CAddResultName "ab" "x+1"); OCall (CAddResult ex_ab "y*2");
   OCall (CAddResultName "ab" "z")].
Definition ex_rec_final : CodeSquashContext :=
  ctx_of (run ex_rec_ops (newCodeSquashContext ∅)).

(** Two nested loops, released innermost first; and the same with the
    outer scope released first. *)
Definition ex_nest : list op :=
  [OBeginLoop 1%N; OBeginLoop 3%N; OEndLoop ex_inner; OEndLoop ex_scope].
Definition ex_misnest : list op :=
  [OBeginLoop 1%N; OBeginLoop 3%N; OEndLoop ex_scope; OEndLoop ex_inner].

(** The node named [x] is the input column 3 and also has a record in the
    registry; then a loop is opened. *)
Definition ex_obs : TNamedPtr := namePtrOf "x".
Definition ex_obs_ops : list op :=
  [OCall (CAddVecObs "x" 3); OCall (CAddResultName "x" "stale");
   OBeginLoop 1%N].
Definition ex_obs_ctx : CodeSquashContext :=
  ctx_of (run ex_obs_ops (newCodeSquashContext ex_sizes)).

(** Two lists of different identity with the same members, both recorded. *)
Definition ex_a : TNamedPtr := namePtrOf "a".
Definition ex_b : TNamedPtr := namePtrOf "b".
Definition ex_l1 : RooListProxy :=
  {| uniqueId := 10; members := [ex_a; ex_b] |}.
Definition ex_l2 : RooListProxy :=
  {| uniqueId := 11; members := [ex_a; ex_b] |}.
Definition ex_lists : CodeSquashContext :=
  ctx_of (run [OCall (CAddResultName "a" "x"); OCall (CAddResultName "b" "y")]
            (newCodeSquashContext ∅)).
Definition ex_args : list Arg :=
  [ArgAbsArg ex_a; ArgInt 3; ArgString "z"; ArgCollection ex_l1].
Definition ex_args_pure : list Arg :=
  [ArgProxy ex_b; ArgUInt 7%N; ArgDouble 2].

End Example.

(** ** Relations between contexts *)

(** From [c] to [c'] the buffers were only appended to and the splice pointer
    was left alone. *)
Definition grows (c c' : CodeSquashContext) : Prop :=
  _scopePtr c' = _scopePtr c ∧
  (∃ B, _code c' = _code c +:+ B) ∧
  (∃ T, _tempScope c' = _tempScope c +:+ T) ∧
  _tmpVarIdx c ≤ _tmpVarIdx c' ∧
  listNames c ⊆ listNames c' ∧
  _nodeOutputSizes c' = _nodeOutputSizes c.

(** In addition the loop level is the same, and outside of loops nothing was
    put into the temp-scope buffer. *)
Definition ext (c c' : CodeSquashContext) : Prop :=
  grows c c' ∧
  _loopLevel c' = _loopLevel c ∧
  (_loopLevel c ≤ 0 → _tempScope c' = _tempScope c).

(** What every member function leaves alone or only extends: the counter of
    temporaries does not go back, a cached list name stays, the table of
    output sizes is not written. *)
Definition keeps (c c' : CodeSquashContext) : Prop :=
  _tmpVarIdx c ≤ _tmpVarIdx c' ∧
  listNames c ⊆ listNames c' ∧
  _nodeOutputSizes c' = _nodeOutputSizes c.

Definition same_names (c c' : CodeSquashContext) : Prop :=
  _nodeNames c' = _nodeNames c.

(** What a lookup reads is the same in [c'] as in [c]. *)
Definition same_lookup (c c' : CodeSquashContext) : Prop :=
  _nodeNames c' = _nodeNames c ∧
  _vecObsIndices c' = _vecObsIndices c ∧
  _loopLevel c' = _loopLevel c.

(** A member function relates the context it is called on to the one it
    leaves, whether it returns or throws. *)
Definition preserves {A} (R : relation CodeSquashContext) (m : M A) : Prop :=
  ∀ c, R c (ctx_of (m c)).

Abbreviation frames := (preserves ext).

(** The state of the splice machinery is consistent: outside of loops
    nothing is pending; inside, the pointer is an offset of the code body. *)
Definition wf (c : CodeSquashContext) : Prop :=
  0 ≤ _loopLevel c ∧
  (_loopLevel c = 0 → _tempScope c = "" ∧ _scopePtr c = -1) ∧
  (0 < _loopLevel c →
   0 ≤ _scopePtr c ∧ (Z.to_nat (_scopePtr c) ≤ String.length (_code c))%nat).



(** The buffers of a context hold the text of a layout: the code body is
    the placed text followed by the text of the open loop, the temp-scope
    buffer holds the hoisted statements, and while a loop is open the splice
    pointer is the length of the placed text. *)
Definition laid_out (c : CodeSquashContext) (l : layout) : Prop :=
  _code c = lay_placed l +:+ lay_inloop l ∧
  _tempScope c = lay_hoisted l ∧
  _loopLevel c = Z.of_nat (lay_open l) ∧
  (lay_open l = O → lay_inloop l = "") ∧
  (lay_open l ≠ O → _scopePtr c = Z.of_nat (String.length (lay_placed l))).



Ltac munfold :=
  unfold discard, addResult, addResult_cstr, addResult_TNamed, getResult,
    addToCodeBody, addToGlobalScope, addVecObs, assembleCode, allocName,
    getTmpVarName, saveAsTemp, bind, get, modify, ret, throw in *.

(** ** Literal arguments and emitted text

    The arguments whose [buildArg] overload the header defines without a
    call of another member function: numbers and raw strings. *)
Inductive Literal `{Framework} :=
  | LitDouble (x : double)
  | LitInt (x : Z)
  | LitUInt (x : N)
  | LitULong (x : N)
  | LitString (x : string).

Definition lit_arg `{Framework} (l : Literal) : Arg :=
  match l with
  | LitDouble x => ArgDouble x
  | LitInt x => ArgInt x
  | LitUInt x => ArgUInt x
  | LitULong x => ArgULong x
  | LitString x => ArgString x
  end.

(** The text that stands for a literal in a call. *)
Definition lit_text `{Framework} (l : Literal) : string :=
  match l with
  | LitDouble x => RooNumber_toString x
  | LitInt x => pretty x
  | LitUInt x => pretty x
  | LitULong x => pretty x
  | LitString x => x
  end.

(** An argument with the proxy of a node replaced by the node. *)
Definition unproxy `{Framework} (a : Arg) : Arg :=
  match a with
  | ArgProxy arg => ArgAbsArg arg
  | _ => a
  end.

(** The calls [addToCodeBody(s)] for the strings of a list, in order. *)
Definition emitAll `{Framework} (l : list string) : list op :=
  map (λ s, OCall (CAddToCodeBody s)) l.

(** The strings of a list one after the other. *)
Definition str_concat (l : list string) : string :=
  foldr String.append "" l.

(** A compiler that evaluates the right operand of [+] first. *)
Definition example_compiler_rtl : Compiler := {| evalLeftToRight := false |}.

(** * Properties *)

Lemma str_app_nil_l (a : string) : "" +:+ a = a.
Proof. reflexivity. Qed.

Lemma str_app_cons (x : Ascii.ascii) (a b : string) :
  String x a +:+ b = String x (a +:+ b).
Proof. reflexivity. Qed.

Lemma str_app_assoc (a b c : string) : (a +:+ b) +:+ c = a +:+ (b +:+ c).
Proof.
  induction a as [|x a IH]; [reflexivity|].
  rewrite !str_app_cons. by rewrite IH.
Qed.

Lemma str_app_nil_r (a : string) : a +:+ "" = a.
Proof.
  induction a as [|x a IH]; [reflexivity|].
  rewrite str_app_cons. by rewrite IH.
Qed.

Lemma str_app_length (a b : string) :
  String.length (a +:+ b) = (String.length a + String.length b)%nat.
Proof.
  induction a as [|x a IH]; [reflexivity|].
  rewrite str_app_cons. simpl. by rewrite IH.
Qed.

Lemma str_take_app (a b : string) : str_take (String.length a) (a +:+ b) = a.
Proof.
  induction a as [|x a IH]; [by destruct b|].
  rewrite str_app_cons. simpl. by rewrite IH.
Qed.

Lemma str_drop_app (a b : string) : str_drop (String.length a) (a +:+ b) = b.
Proof.
  induction a as [|x a IH]; [reflexivity|].
  rewrite str_app_cons. simpl. exact IH.
Qed.

Lemma str_insert_app (a b t : string) :
  str_insert (String.length a) t (a +:+ b) = Some (a +:+ t +:+ b).
Proof.
  unfold str_insert. rewrite str_app_length.
  destruct (decide _) as [_|Hn]; [|lia].
  by rewrite str_take_app, str_drop_app.
Qed.

(** ** Monad and frame lemmas *)

Ltac solve_ext :=
  repeat split; simpl; try done; try lia;
  try (exists ""; by rewrite str_app_nil_r); try (by eexists).

Lemma grows_refl c : grows c c.
Proof.
  repeat split; try done; try lia.
  - exists "". by rewrite str_app_nil_r.
  - exists "". by rewrite str_app_nil_r.
Qed.

Lemma grows_trans c1 c2 c3 : grows c1 c2 → grows c2 c3 → grows c1 c3.
Proof.
  intros (Hp & [B HB] & [T HT] & Hi & Hl & Hs)
         (Hp' & [B' HB'] & [T' HT'] & Hi' & Hl' & Hs').
  repeat split.
  - congruence.
  - exists (B +:+ B'). by rewrite HB', HB, str_app_assoc.
  - exists (T +:+ T'). by rewrite HT', HT, str_app_assoc.
  - lia.
  - by etrans.
  - congruence.
Qed.

Lemma ext_refl c : ext c c.
Proof. split; [apply grows_refl | done]. Qed.

Lemma ext_trans c1 c2 c3 : ext c1 c2 → ext c2 c3 → ext c1 c3.
Proof.
  intros (Hg & Hl & Ht) (Hg' & Hl' & Ht'). split; [|split].
  - by eapply grows_trans.
  - congruence.
  - intros Hle. rewrite Ht' by lia. by apply Ht.
Qed.

Section Preserves.
Context {R : relation CodeSquashContext} {HR : PreOrder R}.

Lemma preserves_ret {A} (a : A) : preserves R (ret a).
Proof. intros c. simpl. reflexivity. Qed.

Lemma preserves_throw {A} e : preserves R (@throw A e).
Proof. intros c. simpl. reflexivity. Qed.

Lemma preserves_get : preserves R get.
Proof. intros c. simpl. reflexivity. Qed.

Lemma preserves_bind {A B} (m : M A) (f : A → M B) :
  preserves R m → (∀ a, preserves R (f a)) → preserves R (bind m f).
Proof.
  intros Hm Hf c. unfold bind. specialize (Hm c).
  destruct (m c) as [a c'|e c']; simpl in *; [|done].
  etrans; [done | apply Hf].
Qed.

Lemma preserves_discard {A} (m : M A) : preserves R m → preserves R (discard m).
Proof.
  intros Hm. apply preserves_bind; [done | intros; apply preserves_ret].
Qed.

Lemma preserves_mapM {A B} (f : A → M B) l :
  (∀ a, preserves R (f a)) → preserves R (mapM f l).
Proof.
  intros Hf. induction l as [|x l IH]; simpl; [apply preserves_ret|].
  apply preserves_bind; [done|]. intros y.
  apply preserves_bind; [done|]. intros. apply preserves_ret.
Qed.

End Preserves.

Global Instance grows_preorder : PreOrder grows.
Proof. split; [exact grows_refl | exact grows_trans]. Qed.

Global Instance ext_preorder : PreOrder ext.
Proof. split; [exact ext_refl | exact ext_trans]. Qed.

Global Instance keeps_preorder : PreOrder keeps.
Proof.
  split.
  - intros c. repeat split; [lia | done].
  - intros c1 c2 c3 (Hi & Hl & Hs) (Hi' & Hl' & Hs'). repeat split.
    + lia.
    + by etrans.
    + congruence.
Qed.

Global Instance same_names_preorder : PreOrder same_names.
Proof.
  split; [done|]. intros c1 c2 c3. unfold same_names. congruence.
Qed.

Global Instance same_lookup_preorder : PreOrder same_lookup.
Proof.
  split; [done|].
  intros c1 c2 c3 (Hn & Hv & Hl) (Hn' & Hv' & Hl').
  repeat split; congruence.
Qed.

Lemma ext_keeps c c' : ext c c' → keeps c c'.
Proof. intros ((_ & _ & _ & Hi & Hl & Hs) & _). by repeat split. Qed.

Section Frames.
Context {tgt : Target} {fw : Framework} {cc : Compiler}.

Lemma frames_addResult_TNamed key value : frames (addResult_TNamed key value).
Proof. intros c. munfold. solve_ext. Qed.

Lemma getResult_eq arg c :
  getResult arg c =
  match resolve c arg with Some found => Ok found c | None => Err NotFound c end.
Proof. unfold getResult. munfold. by destruct (resolve c arg). Qed.

Lemma resolve_same c c' arg :
  same_lookup c c' → resolve c' arg = resolve c arg.
Proof. intros (Hn & Hv & Hl). unfold resolve. by rewrite Hn, Hv, Hl. Qed.

Lemma lookupAll_same c c' l :
  same_lookup c c' → lookupAll c' l = lookupAll c l.
Proof.
  intros Hs. induction l as [|k l IH]; [done|].
  simpl. by rewrite IH, (resolve_same _ _ _ Hs).
Qed.

Lemma frames_getResult arg : frames (getResult arg).
Proof. intros c. rewrite getResult_eq. destruct (resolve c arg); apply ext_refl. Qed.

Lemma frames_addToCodeBody s : frames (addToCodeBody s).
Proof. intros c. munfold. solve_ext. Qed.

Lemma frames_addToGlobalScope s : frames (addToGlobalScope s).
Proof. intros c. munfold. solve_ext. Qed.

Lemma frames_addVecObs key idx : frames (addVecObs key idx).
Proof. intros c. munfold. solve_ext. Qed.

Lemma frames_assembleCode r : frames (assembleCode r).
Proof. intros c. munfold. case_bool_decide; apply ext_refl. Qed.

Lemma frames_getTmpVarName : frames getTmpVarName.
Proof. intros c. munfold. solve_ext. Qed.

Lemma saveAsTemp_eq in_ value name c :
  saveAsTemp in_ value name c =
  let useName := negb (String.eqb name "") && nameIsUnique c name in
  let savedName :=
    if useName then name else tmpVarBase +:+ pretty (_tmpVarIdx c) in
  let c1 := if useName then c else set_tmpVarIdx (λ i, i + 1) c in
  Ok savedName
    (if bool_decide (0 < _loopLevel c) && negb (dependsOnLoopVar c in_)
     then set_tempScope (λ t, t +:+ assignStmt savedName value) c1
     else set_code (λ code, code +:+ assignStmt savedName value) c1).
Proof.
  unfold saveAsTemp, allocName, getTmpVarName. munfold. simpl.
  destruct (negb (String.eqb name "") && nameIsUnique c name); simpl;
    by destruct (bool_decide (0 < _loopLevel c) && _).
Qed.

Lemma frames_saveAsTemp in_ value name : frames (saveAsTemp in_ value name).
Proof.
  intros c. rewrite saveAsTemp_eq. cbv zeta.
  destruct (negb (String.eqb name "") && nameIsUnique c name); simpl;
    (destruct (bool_decide (0 < _loopLevel c)) eqn:Hl; simpl;
     [destruct (negb (dependsOnLoopVar c in_)); simpl|]);
    try (apply bool_decide_eq_true in Hl);
    try (apply bool_decide_eq_false in Hl); solve_ext.
Qed.

Lemma frames_addResult key value : frames (addResult key value).
Proof.
  unfold addResult. apply preserves_bind; [apply frames_saveAsTemp|].
  intros. apply frames_addResult_TNamed.
Qed.

(** [getResult] on the members of a list, one after the other. *)
Lemma mapM_getResult l c :
  mapM getResult l c =
  match lookupAll c l with
  | Some ys => Ok ys c
  | None => Err NotFound c
  end.
Proof.
  induction l as [|k l IH]; simpl; [done|].
  unfold bind at 1. rewrite getResult_eq.
  destruct (resolve c k) as [y|]; simpl; [|done].
  unfold bind at 1. rewrite IH.
  by destruct (lookupAll _ l).
Qed.

Lemma saveListAsArray_hit in_ name c cached :
  listNames c !! uniqueId in_ = Some cached →
  saveListAsArray in_ name c = Ok cached c.
Proof. intros Hc. unfold saveListAsArray, bind, get. by rewrite Hc. Qed.

Lemma saveListAsArray_miss in_ name c :
  listNames c !! uniqueId in_ = None →
  saveListAsArray in_ name c =
  let useName := negb (String.eqb name "") && nameIsUnique c name in
  let savedName :=
    if useName then name else tmpVarBase +:+ pretty (_tmpVarIdx c) in
  let c1 := if useName then c else set_tmpVarIdx (λ i, i + 1) c in
  match lookupAll c (members in_) with
  | Some elems =>
      Ok savedName
        (set_listNames (λ m, <[uniqueId in_ := savedName]> m)
           (set_code (λ code, code +:+ arrayInitStmt savedName elems) c1))
  | None => Err NotFound c1
  end.
Proof.
  intros Hc. unfold saveListAsArray, bind at 1, get. rewrite Hc.
  unfold bind at 1, allocName, bind at 1, get.
  destruct (negb (String.eqb name "") && nameIsUnique c name); simpl.
  - unfold ret at 1, bind at 1. rewrite mapM_getResult.
    by destruct (lookupAll _ _).
  - unfold getTmpVarName, bind at 1, get, bind at 1, modify, ret at 1.
    unfold bind at 1. rewrite mapM_getResult.
    rewrite (lookupAll_same c (set_tmpVarIdx (λ i, i + 1) c)) by done.
    by destruct (lookupAll _ _).
Qed.

Lemma frames_saveListAsArray in_ name : frames (saveListAsArray in_ name).
Proof.
  intros c. destruct (listNames c !! uniqueId in_) as [n|] eqn:Hc.
  - rewrite (saveListAsArray_hit _ _ _ _ Hc). apply ext_refl.
  - rewrite (saveListAsArray_miss _ _ _ Hc). simpl.
    destruct (negb _ && _), (lookupAll _ _); solve_ext;
      by apply insert_subseteq.
Qed.

Lemma frames_buildArg a : frames (buildArg a).
Proof.
  destruct a; simpl; try apply preserves_ret;
    auto using frames_saveListAsArray, frames_getResult.
Qed.

Lemma frames_buildArgs args : frames (buildArgs args).
Proof.
  induction args as [|a args IH]; [apply preserves_ret|].
  destruct args as [|b args]; [apply frames_buildArg|].
  change (frames (if evalLeftToRight
    then let* x := buildArg a in let* y := buildArgs (b :: args) in
         ret ((x +:+ ", ") +:+ y)
    else let* y := buildArgs (b :: args) in let* x := buildArg a in
         ret ((x +:+ ", ") +:+ y))).
  destruct evalLeftToRight;
    repeat (apply preserves_bind; [done || apply frames_buildArg|]; intros);
    apply preserves_ret.
Qed.

Lemma frames_buildCall f args : frames (buildCall f args).
Proof.
  apply preserves_bind; [apply frames_buildArgs | intros; apply preserves_ret].
Qed.

Lemma frames_exec_call c : frames (exec_call c).
Proof.
  destruct c; simpl; try apply preserves_discard;
    auto using frames_addResult, frames_addResult_TNamed,
      frames_getResult, frames_addToGlobalScope, frames_assembleCode,
      frames_addVecObs, frames_addToCodeBody, frames_buildCall,
      frames_getTmpVarName, frames_saveAsTemp, frames_saveListAsArray.
  apply frames_addResult_TNamed.
Qed.

End Frames.

(** ** Loops *)

Section Loops.
Context {tgt : Target} {fw : Framework} {cc : Compiler}.

Lemma beginLoop_eq in_ c :
  beginLoop in_ c =
  Ok {| target := {| vars := loopVarsOf c in_ |}; depth := _loopLevel c |}
    (set_code
       (λ code, code +:+
          loopHeaderStmt (_loopLevel c) (outputSize c in_) (loopVarsOf c in_))
       (set_loopLevel (λ l, l + 1)
          (if bool_decide (_loopLevel c = 0)
           then set_scopePtr (λ _, Z.of_nat (String.length (_code c))) c
           else c))).
Proof.
  unfold beginLoop. munfold. by case_bool_decide.
Qed.

Lemma endLoop_unmatched scope c :
  _loopLevel c ≤ 0 → endLoop scope c = Err ScopeLeak c.
Proof.
  intros Hl. unfold endLoop. munfold. by rewrite bool_decide_eq_true_2.
Qed.

(** A scope other than the one opened last among the open ones is not
    released. *)
Lemma endLoop_misnested scope c :
  depth scope ≠ _loopLevel c - 1 → endLoop scope c = Err ScopeLeak c.
Proof.
  intros Hd. unfold endLoop. munfold. case_bool_decide; [done|].
  by rewrite bool_decide_eq_false_2.
Qed.

Lemma endLoop_ok_inv scope c c' :
  endLoop scope c = Ok tt c' →
  0 < _loopLevel c ∧ depth scope = _loopLevel c - 1.
Proof.
  intros He. split.
  - destruct (decide (0 < _loopLevel c)) as [|Hn]; [done|].
    by rewrite endLoop_unmatched in He by lia.
  - destruct (decide (depth scope = _loopLevel c - 1)) as [|Hn]; [done|].
    by rewrite endLoop_misnested in He.
Qed.

Lemma endLoop_inner scope c :
  1 < _loopLevel c → depth scope = _loopLevel c - 1 →
  endLoop scope c =
  Ok tt (set_loopLevel (λ l, l - 1)
           (set_code (λ code, code +:+ loopCloseStmt) c)).
Proof.
  intros Hl Hd. unfold endLoop. munfold.
  rewrite bool_decide_eq_false_2 by lia.
  rewrite (bool_decide_eq_true_2 _ Hd). simpl.
  by rewrite bool_decide_eq_false_2 by lia.
Qed.

Lemma endLoop_outer scope c a b :
  _loopLevel c = 1 → depth scope = 0 →
  _scopePtr c = Z.of_nat (String.length a) →
  _code c = a +:+ b →
  endLoop scope c =
  Ok tt (set_scopePtr (λ _, -1)
           (set_tempScope (λ _, "")
              (set_code (λ _, a +:+ _tempScope c +:+ b +:+ loopCloseStmt)
                 (set_loopLevel (λ l, l - 1) c)))).
Proof.
  intros Hl Hd Hp Hc. unfold endLoop. munfold.
  rewrite bool_decide_eq_false_2 by lia.
  rewrite bool_decide_eq_true_2 by lia. simpl.
  rewrite bool_decide_eq_true_2 by lia. simpl.
  rewrite Hp, Hc, bool_decide_eq_true_2 by lia.
  rewrite Nat2Z.id, str_app_assoc, str_insert_app.
  destruct c; simpl in *. by subst.
Qed.

(** A valid splice pointer splits the code body. *)
Lemma str_split_at (n : nat) (s : string) :
  (n ≤ String.length s)%nat →
  ∃ a b, s = a +:+ b ∧ String.length a = n.
Proof.
  revert s. induction n as [|n IH]; intros s Hn.
  - by exists "", s.
  - destruct s as [|x s]; simpl in Hn; [lia|].
    destruct (IH s) as (a & b & -> & Hlen); [lia|].
    exists (String x a), b. split; [done|]. simpl. by rewrite Hlen.
Qed.

Lemma endLoop_wf scope c :
  wf c → 0 < _loopLevel c → depth scope = _loopLevel c - 1 →
  ∃ c', endLoop scope c = Ok tt c' ∧ wf c' ∧
        _loopLevel c' = _loopLevel c - 1 ∧ keeps c c' ∧ same_names c c' ∧
        _globalScope c' = _globalScope c.
Proof.
  intros (Hl0 & Hz & Hp) Hl Hd. destruct (Hp Hl) as [Hp0 Hlen].
  destruct (decide (_loopLevel c = 1)) as [H1|Hn1].
  - destruct (str_split_at _ _ Hlen) as (a & b & Hc & Ha).
    eexists. split; [apply (endLoop_outer _ _ a b); [done|lia| |done]|].
    { rewrite Ha. lia. }
    repeat split; simpl; intros; simpl in *; try done; try lia.
  - eexists. split; [apply endLoop_inner; lia|].
    repeat split; simpl; intros; simpl in *; try done; try lia.
    rewrite str_app_length. lia.
Qed.

Lemma beginLoop_wf in_ c :
  wf c → wf (ctx_of (beginLoop in_ c)).
Proof.
  intros (Hl0 & Hz & Hp). rewrite beginLoop_eq. simpl.
  case_bool_decide as Hl; repeat split; simpl; intros; simpl in *; try lia;
    rewrite ?Nat2Z.id, ?str_app_length; try lia;
    destruct Hp as [Hp1 Hp2]; lia.
Qed.

Lemma call_wf k c : wf c → wf (ctx_of (exec_call k c)).
Proof.
  intros (Hl0 & Hz & Hp).
  destruct (frames_exec_call k c)
    as ((Hptr & [B HB] & _ & _) & Hlev & Htmp).
  split; [lia|]. split.
  - intros Hl. rewrite Htmp, Hptr by lia. apply Hz. lia.
  - intros Hl. rewrite Hptr, HB, str_app_length.
    destruct Hp as [Hp1 Hp2]; [lia|]. split; lia.
Qed.

Lemma exec_wf o c : wf c → wf (ctx_of (exec o c)).
Proof.
  intros Hwf. destruct o as [k|in_|scope]; simpl.
  - by apply call_wf.
  - unfold discard. unfold bind.
    pose proof (beginLoop_wf in_ c Hwf) as Hb.
    rewrite beginLoop_eq in *. done.
  - destruct (decide (0 < _loopLevel c)) as [Hl|Hl];
      [|by rewrite endLoop_unmatched by lia].
    destruct (decide (depth scope = _loopLevel c - 1)) as [Hd|Hd];
      [|by rewrite endLoop_misnested].
    destruct (endLoop_wf scope c Hwf Hl Hd) as (c' & -> & Hwf' & _). done.
Qed.

Lemma run_wf ops c : wf c → wf (ctx_of (run ops c)).
Proof.
  revert c. induction ops as [|o ops IH]; intros c Hwf; simpl; [done|].
  unfold bind. pose proof (exec_wf o c Hwf) as Ho.
  destruct (exec o c) as [[] c'|e c']; simpl in *; [by apply IH | done].
Qed.

Lemma new_wf sizes : wf (newCodeSquashContext sizes).
Proof. repeat split; simpl; intros; try done; lia. Qed.

End Loops.

(** ** The registry, the counter and the cache along a run *)

Section Registry.
Context {tgt : Target} {fw : Framework} {cc : Compiler}.

Lemma names_saveAsTemp in_ value name :
  preserves same_names (saveAsTemp in_ value name).
Proof.
  intros c. rewrite saveAsTemp_eq. simpl.
  by destruct (negb _ && nameIsUnique c name), (bool_decide _ && _).
Qed.

Lemma names_getResult arg : preserves same_names (getResult arg).
Proof. intros c. rewrite getResult_eq. by destruct (resolve c arg). Qed.

Lemma names_saveListAsArray in_ name :
  preserves same_names (saveListAsArray in_ name).
Proof.
  intros c. destruct (listNames c !! uniqueId in_) as [n|] eqn:Hc.
  - by rewrite (saveListAsArray_hit _ _ _ _ Hc).
  - rewrite (saveListAsArray_miss _ _ _ Hc). simpl.
    by destruct (negb _ && _), (lookupAll _ _).
Qed.

Lemma names_buildArg a : preserves same_names (buildArg a).
Proof.
  destruct a; simpl; try apply preserves_ret;
    auto using names_saveListAsArray, names_getResult.
Qed.

Lemma names_buildArgs args : preserves same_names (buildArgs args).
Proof.
  induction args as [|a args IH]; [apply preserves_ret|].
  destruct args as [|b args]; [apply names_buildArg|].
  change (preserves same_names (if evalLeftToRight
    then let* x := buildArg a in let* y := buildArgs (b :: args) in
         ret ((x +:+ ", ") +:+ y)
    else let* y := buildArgs (b :: args) in let* x := buildArg a in
         ret ((x +:+ ", ") +:+ y))).
  destruct evalLeftToRight;
    repeat (apply preserves_bind; [done || apply names_buildArg|]; intros);
    apply preserves_ret.
Qed.

Lemma names_beginLoop in_ : preserves same_names (beginLoop in_).
Proof. intros c. rewrite beginLoop_eq. simpl. by case_bool_decide. Qed.

Lemma endLoop_cases scope c :
  endLoop scope c = Err ScopeLeak c ∨
  endLoop scope c =
    Ok tt (set_loopLevel (λ l, l - 1)
             (set_code (λ code, code +:+ loopCloseStmt) c)) ∨
  endLoop scope c =
    Err ScopeLeak (set_loopLevel (λ l, l - 1)
                     (set_code (λ code, code +:+ loopCloseStmt) c)) ∨
  ∃ code',
    endLoop scope c =
      Ok tt (set_scopePtr (λ _, -1)
               (set_tempScope (λ _, "")
                  (set_code (λ _, code')
                     (set_loopLevel (λ l, l - 1)
                        (set_code (λ code, code +:+ loopCloseStmt) c))))).
Proof.
  unfold endLoop. munfold. case_bool_decide; [by left|].
  case_bool_decide; [|by left]. simpl.
  case_bool_decide; [|by right; left]. simpl.
  destruct (if bool_decide _ then _ else _) as [code'|];
    [right; right; right; by exists code' | right; right; by left].
Qed.

Lemma names_endLoop scope : preserves same_names (endLoop scope).
Proof.
  intros c.
  destruct (endLoop_cases scope c) as [->|[->|[->|[code' ->]]]]; done.
Qed.

Lemma keeps_endLoop scope : preserves keeps (endLoop scope).
Proof.
  intros c.
  destruct (endLoop_cases scope c) as [->|[->|[->|[code' ->]]]];
    repeat split; simpl; try done; lia.
Qed.

Lemma keeps_exec o : preserves keeps (exec o).
Proof.
  intros c. destruct o as [k|in_|scope]; simpl.
  - apply ext_keeps, frames_exec_call.
  - unfold discard, bind. rewrite beginLoop_eq. simpl.
    case_bool_decide; repeat split; simpl; try done; lia.
  - apply keeps_endLoop.
Qed.

Lemma keeps_run ops : preserves keeps (run ops).
Proof.
  induction ops as [|o ops IH]; simpl; [apply preserves_ret|].
  apply preserves_bind; [apply keeps_exec | done].
Qed.

(** One call changes the registry by the record it makes, if any. *)
Lemma exec_names o c :
  _nodeNames (ctx_of (exec o c)) =
  match recorded o c with
  | Some (k, v) => <[k := v]> (_nodeNames c)
  | None => _nodeNames c
  end.
Proof.
  destruct o as [k|in_|scope]; simpl.
  - destruct k; simpl;
      try (apply (preserves_discard (R:=same_names)));
      auto using names_getResult, names_saveAsTemp, names_saveListAsArray.
    + unfold addResult, bind.
      pose proof (names_saveAsTemp key value "" c) as Hn.
      rewrite saveAsTemp_eq in *. simpl in *. unfold same_names in Hn.
      by rewrite Hn.
    + intros c'. munfold. by case_bool_decide.
    + apply (preserves_bind (R:=same_names)); [apply names_buildArgs|].
      intros. apply preserves_ret.
  - apply (preserves_discard (R:=same_names)), names_beginLoop.
  - apply names_endLoop.
Qed.

Lemma run_names ops c c' key :
  run ops c = Ok tt c' →
  _nodeNames c' !! key =
  match last_recorded key (records ops c) with
  | Some v => Some v
  | None => _nodeNames c !! key
  end.
Proof.
  revert c. induction ops as [|o ops IH]; intros c Hrun; simpl in *.
  - by inversion Hrun.
  - unfold bind in Hrun. pose proof (exec_names o c) as Hn.
    destruct (exec o c) as [[] c1|e c1]; simpl in *; [|done].
    specialize (IH _ Hrun).
    destruct (recorded o c) as [[k v]|]; simpl.
    + rewrite IH, Hn.
      destruct (last_recorded key (records ops c1)); [done|].
      case_bool_decide; subst; by simplify_map_eq.
    + by rewrite IH, Hn.
Qed.

End Registry.

(** ** Output sizes, lookups and final assembly *)

Section Lookups.
Context {tgt : Target} {fw : Framework} {cc : Compiler}.

(** C9.  In the context constructed with the table [sizes], and at every
    later point of a run that starts from it, [outputSize] of a handle is
    the size that the table stores for it, and 1 for a handle that the table
    does not have. *)
Theorem outputSize_default :
  (∀ (sizes : gmap DataKey N) (key : DataKey),
     outputSize (newCodeSquashContext sizes) key =
     default 1%N (sizes !! key)) ∧
  (∀ (sizes : gmap DataKey N) (ops : list op) (key : DataKey),
     outputSize (ctx_of (run ops (newCodeSquashContext sizes))) key =
     default 1%N (sizes !! key)).
Proof.
  split.
  - intros sizes key. unfold outputSize. simpl. by destruct (sizes !! key).
  - intros sizes ops key.
    destruct (keeps_run ops (newCodeSquashContext sizes)) as (_ & _ & Hs).
    unfold outputSize. rewrite Hs. simpl. by destruct (sizes !! key).
Qed.

(** C10.  [buildCall] without arguments returns the function name followed
    by an empty pair of parentheses, and leaves the context as it is. *)
Theorem buildCall_no_args (funcname : string) (c : CodeSquashContext) :
  buildCall funcname [] c = Ok (funcname +:+ "()") c.
Proof. reflexivity. Qed.


Lemma laid_out_of c : _loopLevel c = 0 → laid_out c (lay_of c).
Proof.
  intros Hl. unfold laid_out. simpl.
  by rewrite str_app_nil_r, Hl.
Qed.

(** One step of a run does to the buffers what [lay_step] does to the
    layout: the splice at the recorded offset is the placing of the hoisted
    statements in front of the loop. *)
Lemma exec_laid_out o c c' l :
  laid_out c l → exec o c = Ok tt c' →
  laid_out c' (lay_step l (emission_of o c)).
Proof.
  intros (Hcode & Htmp & Hlev & Hin & Hptr) He.
  destruct o as [k|in_|scope]; simpl in He.
  - destruct (frames_exec_call k c)
      as ((Hp & [B HB] & [T HT] & _) & Hl & _).
    unfold emission_of. rewrite He in *. simpl in Hp, HB, HT, Hl |- *.
    rewrite HB, HT, !str_drop_app.
    destruct (lay_open l) as [|n] eqn:Ho; unfold laid_out; simpl.
    + rewrite HB, HT, Hcode, Htmp, Hl, Hlev, (Hin eq_refl).
      rewrite !str_app_nil_r. done.
    + rewrite HB, HT, Hcode, Htmp, Hl, Hlev, Hp, str_app_assoc.
      split; [done|]. split; [done|]. split; [done|]. split; [done|].
      intros _. by apply Hptr.
  - unfold discard, bind in He. rewrite beginLoop_eq in He.
    inversion He; subst c'; clear He. unfold laid_out. simpl.
    case_bool_decide as H0; simpl;
      rewrite Hcode, Htmp, Hlev, str_app_assoc;
      (split; [done|]); (split; [done|]); (split; [lia|]);
      (split; [done|]); intros _.
    + assert (lay_open l = O) as Ho by lia.
      by rewrite (Hin Ho), str_app_nil_r.
    + apply Hptr. lia.
  - destruct (endLoop_ok_inv _ _ _ He) as [Hpos Hd].
    destruct (lay_open l) as [|[|n]] eqn:Ho; [lia| |].
    + rewrite (endLoop_outer scope c (lay_placed l) (lay_inloop l)) in He;
        [|lia|lia|by apply Hptr|done].
      inversion He; subst c'; clear He. unfold laid_out. simpl.
      rewrite Ho. simpl. rewrite Htmp, Hlev, str_app_nil_r.
      repeat split; done.
    + rewrite endLoop_inner in He by lia.
      inversion He; subst c'; clear He. unfold laid_out. simpl.
      rewrite Ho. simpl. rewrite Hcode, Htmp, Hlev, str_app_assoc.
      split; [done|]. split; [done|]. split; [lia|]. split; [done|].
      intros _. by apply Hptr.
Qed.

Lemma run_laid_out ops c c' l :
  laid_out c l → run ops c = Ok tt c' →
  laid_out c' (lay_out l (emissions ops c)).
Proof.
  revert c l. induction ops as [|o ops IH]; intros c l Hl Hrun.
  - by inversion Hrun; subst.
  - simpl in Hrun. unfold bind in Hrun.
    destruct (exec o c) as [[] c1|] eqn:He; [|done].
    simpl. rewrite He. simpl. apply IH; [|done].
    by eapply exec_laid_out.
Qed.


Lemma str_drop_all (a : string) : str_drop (String.length a) a = "".
Proof. rewrite <- (str_app_nil_r a) at 2. apply str_drop_app. Qed.

(** C2.  (1) At loop level 0 [assembleCode] returns the global scope, then
    the code body, then the return statement, in this order.  (2) In a state
    that a run from a new context reaches at level 0, the code body is the
    layout of what the calls of the run emitted: what was emitted outside of
    loops in call order, and for each outermost loop the statements hoisted
    out of it, in call order, then the loop from its header to its closing
    statement, in call order.  Nothing is pending in the temp-scope buffer,
    nothing was dropped and nothing occurs twice.  (3, 4) What enters the
    layout for [addToCodeBody] is its string, as text of the body, and for
    [saveAsTemp] its assignment, as a hoisted statement if a loop is open
    and the computation depends on no active loop variable, else as text of
    the body. *)
Theorem assembleCode_concat :
  (∀ (c : CodeSquashContext) (returnExpr : string),
     _loopLevel c = 0 →
     assembleCode returnExpr c =
     Ok (_globalScope c +:+ _code c +:+ returnStmt returnExpr) c) ∧
  (∀ (sizes : gmap DataKey N) (ops : list op) (c : CodeSquashContext)
     (returnExpr : string),
     run ops (newCodeSquashContext sizes) = Ok tt c →
     _loopLevel c = 0 →
     let l := lay_out (lay_of (newCodeSquashContext sizes))
                (emissions ops (newCodeSquashContext sizes)) in
     lay_open l = O ∧ lay_hoisted l = "" ∧ lay_inloop l = "" ∧
     _tempScope c = "" ∧ _code c = lay_placed l ∧
     assembleCode returnExpr c =
     Ok (_globalScope c +:+ lay_placed l +:+ returnStmt returnExpr) c) ∧
  (∀ (s : string) (c : CodeSquashContext),
     emission_of (OCall (CAddToCodeBody s)) c = EmCall s "") ∧
  (∀ (in_ : TNamedPtr) (value name n : string) (c c' : CodeSquashContext),
     saveAsTemp in_ value name c = Ok n c' →
     emission_of (OCall (CSaveAsTemp in_ value name)) c =
     if bool_decide (0 < _loopLevel c) && negb (dependsOnLoopVar c in_)
     then EmCall "" (assignStmt n value)
     else EmCall (assignStmt n value) "").
Proof.
  assert (Hasm : ∀ (c : CodeSquashContext) (returnExpr : string),
     _loopLevel c = 0 →
     assembleCode returnExpr c =
     Ok (_globalScope c +:+ _code c +:+ returnStmt returnExpr) c).
  { intros c r Hl. unfold assembleCode. munfold.
    by rewrite bool_decide_eq_false_2 by lia. }
  split; [exact Hasm|]. split; [|split].
  2:{ intros s c. unfold emission_of. simpl.
      by rewrite str_drop_app, str_drop_all. }
  2:{ intros in_ value name n c c' Hs. unfold emission_of. simpl.
      unfold discard, bind. rewrite Hs. simpl.
      rewrite saveAsTemp_eq in Hs. cbv zeta in Hs.
      inversion Hs as [[Hn Hc]]. rewrite Hn.
      destruct (bool_decide (0 < _loopLevel c) && _);
        destruct (negb (String.eqb name "") && nameIsUnique c name); simpl;
        by rewrite str_drop_app, str_drop_all. }
  intros sizes ops c r Hrun Hl l.
  pose proof (run_wf ops _ (new_wf sizes)) as Hwf. rewrite Hrun in Hwf.
  simpl in Hwf. destruct Hwf as (_ & Hz & _). destruct (Hz Hl) as [Htmp _].
  destruct (run_laid_out ops _ c _
              (laid_out_of (newCodeSquashContext sizes) eq_refl) Hrun)
    as (Hcode & Hh & Hlev & Hin & _).
  fold l in Hcode, Hh, Hlev, Hin.
  assert (lay_open l = O) as Ho by lia.
  rewrite (Hin Ho), str_app_nil_r in Hcode.
  split; [done|]. split; [congruence|]. split; [by apply Hin|].
  split; [done|]. split; [done|]. rewrite <- Hcode. by apply Hasm.
Qed.

Lemma resolve_registry c key :
  _vecObsIndices c !! key = None ∨ _loopLevel c ≤ 0 →
  resolve c key = _nodeNames c !! key.
Proof.
  unfold resolve. intros [->|Hl]; [done|].
  destruct (_vecObsIndices c !! key); [|done].
  by rewrite bool_decide_eq_false_2 by lia.
Qed.

Lemma resolve_column c key idx :
  _vecObsIndices c !! key = Some idx → 0 < _loopLevel c →
  resolve c key = Some (vecObsAccess idx (_loopLevel c)).
Proof.
  unfold resolve. intros -> Hl. by rewrite bool_decide_eq_true_2.
Qed.

(** C3.  After a run, the lookup of a handle for which the run recorded a
    result returns the string recorded last for it, unless the handle is
    registered as a vector observable and a loop is open: then the lookup
    returns the indexed access to its input column at the loop index in
    scope, whatever is recorded.  What the inline [addResult] records is the
    variable name that [saveAsTemp] returned for the value. *)
Theorem getResult_last_recorded (ops : list op) (c c' : CodeSquashContext)
    (key : TNamedPtr) (v : string) :
  run ops c = Ok tt c' →
  last_recorded key (records ops c) = Some v →
  (_vecObsIndices c' !! key = None ∨ _loopLevel c' ≤ 0 →
   getResult key c' = Ok v c') ∧
  (∀ idx : Z,
     _vecObsIndices c' !! key = Some idx → 0 < _loopLevel c' →
     getResult key c' = Ok (vecObsAccess idx (_loopLevel c')) c').
Proof.
  intros Hrun Hlast. pose proof (run_names ops c c' key Hrun) as Hn.
  rewrite Hlast in Hn. split.
  - intros Hreg. by rewrite getResult_eq, resolve_registry, Hn.
  - intros idx Hv Hl. by rewrite getResult_eq, (resolve_column _ _ idx).
Qed.


End Lookups.

(** ** Temporaries and cached list names *)

Section Names.
Context {tgt : Target} {fw : Framework} {cc : Compiler}.

Lemma getTmpVarName_eq c :
  getTmpVarName c =
  Ok (tmpVarBase +:+ pretty (_tmpVarIdx c)) (set_tmpVarIdx (λ i, i + 1) c).
Proof. reflexivity. Qed.

Lemma tmpVarName_inj (i j : Z) :
  tmpVarBase +:+ pretty i = tmpVarBase +:+ pretty j → i = j.
Proof. intros Heq. by apply (inj pretty), (inj (String.append tmpVarBase)). Qed.

Lemma tmpVarNames_eq n c :
  tmpVarNames n c =
  map (λ i, tmpVarBase +:+ pretty (_tmpVarIdx c + Z.of_nat i)) (seq 0 n).
Proof.
  revert c. induction n as [|n IH]; intros c; [done|].
  simpl. rewrite IH. simpl. f_equal.
  - f_equal. f_equal. lia.
  - rewrite <- seq_shift, map_map. apply map_ext. intros i.
    f_equal. f_equal. lia.
Qed.

(** [n] calls of [getTmpVarName] in a row return [n] names, no two of them
    equal. *)
Lemma tmpVarNames_distinct n c :
  length (tmpVarNames n c) = n ∧ NoDup (tmpVarNames n c).
Proof.
  rewrite tmpVarNames_eq. split; [by rewrite length_map, length_seq|].
  apply NoDup_fmap_2; [|apply NoDup_seq].
  intros i j Heq. apply tmpVarName_inj in Heq. lia.
Qed.




End Names.

(** ** Calls *)

Section Calls.
Context {tgt : Target} {fw : Framework} {cc : Compiler}.

Lemma join_cons sep x y l :
  join sep (x :: y :: l) = (x +:+ sep) +:+ join sep (y :: l).
Proof. simpl. by rewrite str_app_assoc. Qed.

Lemma buildArgs_cons a b args :
  buildArgs (a :: b :: args) =
  if evalLeftToRight then
    let* x := buildArg a in
    let* y := buildArgs (b :: args) in
    ret ((x +:+ ", ") +:+ y)
  else
    let* y := buildArgs (b :: args) in
    let* x := buildArg a in
    ret ((x +:+ ", ") +:+ y).
Proof. reflexivity. Qed.











End Calls.

(** ** Loop scopes *)

Section Scopes.
Context {tgt : Target} {fw : Framework} {cc : Compiler}.






End Scopes.

(** ** Hoisting *)

Section Hoisting.
Context {tgt : Target} {fw : Framework} {cc : Compiler}.




End Hoisting.

(** ** The theorems on the concrete target *)

Section Witnesses.
Local Existing Instances example_target example_framework example_compiler.

Example ex_assembled :
  text_of (assembleCode "s" ex_final) =
  Some ("double s = 0;" +:+ "const double t0 = a*b;" +:+
        "for(int i0 = 0; i0 < 100; i0++) {" +:+ "s += x[i0];" +:+
        "for(int i1 = 0; i1 < 100; i1++) {" +:+ "s += t0;" +:+ "}" +:+ "}" +:+
        "s *= 2;" +:+ "const double t1 = c;" +:+
        "for(int i0 = 0; i0 < 100; i0++) {" +:+ "}" +:+
        "return s;").
Proof. vm_compute. reflexivity. Qed.

Example ex_same_run : ex_c6 = ex_final.
Proof. vm_compute. reflexivity. Qed.


(** The layout of the example run. *)
Example ex_layout :
  lay_placed (lay_out (lay_of (newCodeSquashContext ex_sizes))
                (emissions ex_ops (newCodeSquashContext ex_sizes))) =
  "double s = 0;" +:+ "const double t0 = a*b;" +:+
  "for(int i0 = 0; i0 < 100; i0++) {" +:+ "s += x[i0];" +:+
  "for(int i1 = 0; i1 < 100; i1++) {" +:+ "s += t0;" +:+ "}" +:+ "}" +:+
  "s *= 2;" +:+ "const double t1 = c;" +:+
  "for(int i0 = 0; i0 < 100; i0++) {" +:+ "}".
Proof. vm_compute. reflexivity. Qed.

Lemma assembleCode_concat_witness :
  assembleCode "s" ex_final =
    Ok (_globalScope ex_final +:+ _code ex_final +:+ returnStmt "s") ex_final ∧
  (let l := lay_out (lay_of (newCodeSquashContext ex_sizes))
              (emissions ex_ops (newCodeSquashContext ex_sizes)) in
   lay_open l = O ∧ lay_hoisted l = "" ∧ lay_inloop l = "" ∧
   _tempScope ex_final = "" ∧ _code ex_final = lay_placed l ∧
   assembleCode "s" ex_final =
   Ok (_globalScope ex_final +:+ lay_placed l +:+ returnStmt "s") ex_final) ∧
  emission_of (OCall (CAddToCodeBody "s += t0;")) ex_c3 =
    EmCall "s += t0;" "" ∧
  emission_of (OCall (CSaveAsTemp 2%N "a*b" "")) ex_c2 =
    EmCall "" (assignStmt "t0" "a*b").
Proof.
  destruct assembleCode_concat as (Hasm & Hlay & Hbody & Htemp).
  split; [|split; [|split]].
  - apply Hasm. vm_compute. reflexivity.
  - apply (Hlay ex_sizes ex_ops ex_final "s"); vm_compute; reflexivity.
  - apply Hbody.
  - apply (Htemp 2%N "a*b" "" "t0" ex_c2 ex_c3). vm_compute. reflexivity.
Defined.

Example ex_records :
  records ex_rec_ops (newCodeSquashContext ∅) =
  [(ex_ab, "x+1"); (ex_ab, "t0"); (ex_ab, "z")].
Proof. vm_compute. reflexivity. Qed.

(** C3 as claimed, for every handle with a record, fails: the node named
    [x] has the record [stale] and is registered as input column 3; inside
    a loop its lookup returns the indexed access and not the record. *)
Lemma getResult_last_recorded_counterexample :
  run ex_obs_ops (newCodeSquashContext ex_sizes) = Ok tt ex_obs_ctx ∧
  last_recorded ex_obs (records ex_obs_ops (newCodeSquashContext ex_sizes)) =
    Some "stale" ∧
  getResult ex_obs ex_obs_ctx = Ok "obs[3][i0]" ex_obs_ctx ∧
  getResult ex_obs ex_obs_ctx ≠ Ok "stale" ex_obs_ctx.
Proof.
  split; [vm_compute; reflexivity|]. split; [vm_compute; reflexivity|].
  split; [vm_compute; reflexivity|]. vm_compute. discriminate.
Qed.

Lemma getResult_last_recorded_witness :
  getResult ex_ab ex_rec_final = Ok "z" ex_rec_final ∧
  getResult ex_obs ex_obs_ctx =
    Ok (vecObsAccess 3 (_loopLevel ex_obs_ctx)) ex_obs_ctx.
Proof.
  split.
  - apply (getResult_last_recorded ex_rec_ops (newCodeSquashContext ∅)
             ex_rec_final ex_ab "z"); [vm_compute; reflexivity ..|].
    left. vm_compute. reflexivity.
  - apply (getResult_last_recorded ex_obs_ops (newCodeSquashContext ex_sizes)
             ex_obs_ctx ex_obs "stale"); vm_compute; reflexivity.
Defined.



Example ex_misnested :
  run ex_nest (newCodeSquashContext ex_sizes) =
    Ok tt (ctx_of (run ex_nest (newCodeSquashContext ex_sizes))) ∧
  nested 0 ex_nest = Some O ∧
  (∃ c, run ex_misnest (newCodeSquashContext ex_sizes) = Err ScopeLeak c) ∧
  nested 0 ex_misnest = None.
Proof.
  split; [vm_compute; reflexivity|]. split; [vm_compute; reflexivity|].
  split; [|vm_compute; reflexivity]. eexists. vm_compute. reflexivity.
Qed.


Example ex_two_lists :
  text_of (saveListAsArray ex_l1 "" ex_lists) = Some "t0" ∧
  text_of (saveListAsArray ex_l2 ""
             (ctx_of (saveListAsArray ex_l1 "" ex_lists))) = Some "t1" ∧
  _code (ctx_of (saveListAsArray ex_l2 ""
                   (ctx_of (saveListAsArray ex_l1 "" ex_lists)))) =
  "double t0[] = {x,y};" +:+ "double t1[] = {x,y};".
Proof. vm_compute. done. Qed.



Example ex_output_sizes :
  outputSize ex_final 1%N = 100%N ∧ outputSize ex_final 2%N = 1%N.
Proof. vm_compute. done. Qed.

Example ex_tmp_names : tmpVarNames 3 ex_final = ["t2"; "t3"; "t4"].
Proof. vm_compute. reflexivity. Qed.

Example ex_no_args : text_of (buildCall "f" [] ex_final) = Some "f()".
Proof. vm_compute. reflexivity. Qed.

(** The example of the specification: node A is registered with the
    expression x+1 and a call passes A. *)
Example ex_spec_call :
  text_of (buildCall "f" [ArgAbsArg ex_a]
             (ctx_of (addResult_cstr "a" "x+1" (newCodeSquashContext ∅)))) =
  Some "f(x+1)" ∧
  text_of (buildCall "f" [ArgAbsArg ex_a]
             (ctx_of (addResult ex_a "x+1" (newCodeSquashContext ∅)))) =
  Some "f(t0)" ∧
  _code (ctx_of (addResult ex_a "x+1" (newCodeSquashContext ∅))) =
  "const double t0 = x+1;".
Proof. vm_compute. done. Qed.

Example ex_call :
  text_of (buildCall "f" ex_args ex_lists) = Some "f(x, 3, z, t0)" ∧
  text_of (buildCall "f" ex_args_pure ex_lists) = Some "f(y, 7, 2.0)".
Proof. vm_compute. done. Qed.

(** A call with a list that has no array yet and another with the list
    cached. *)
Example ex_materialised :
  _code (ctx_of (buildCall "f" ex_args ex_lists)) = "double t0[] = {x,y};" ∧
  buildCall "f" ex_args (ctx_of (buildCall "f" ex_args ex_lists)) =
    Ok "f(x, 3, z, t0)" (ctx_of (buildCall "f" ex_args ex_lists)).
Proof. vm_compute. done. Qed.


End Witnesses.

(** ** More on the code of the header *)

Section Header.
Context {tgt : Target} {fw : Framework} {cc : Compiler}.

(** X1.  Calls of [addToCodeBody] append their strings to the code body in
    the order of the calls and touch nothing else: a run of such calls
    returns, and leaves the context it started from with the concatenation
    of the strings appended to the code body.  So emitting text in pieces
    is the same as emitting it at once, and an empty list or empty strings
    change nothing. *)
Theorem addToCodeBody_run (l : list string) (c : CodeSquashContext) :
  run (emitAll l) c = Ok tt (set_code (λ code, code +:+ str_concat l) c).
Proof.
  revert c. induction l as [|s l IH]; intros c.
  - simpl. unfold ret. f_equal. destruct c. unfold set_code. simpl.
    by rewrite str_app_nil_r.
  - simpl. unfold bind at 1. unfold addToCodeBody, modify.
    rewrite IH. f_equal. unfold set_code. simpl.
    by rewrite str_app_assoc.
Qed.

Lemma buildArg_literal (l : Literal) c :
  buildArg (lit_arg l) c = Ok (lit_text l) c.
Proof. by destruct l. Qed.

Lemma buildArgs_literals (ls : list Literal) c :
  buildArgs (map lit_arg ls) c = Ok (join ", " (map lit_text ls)) c.
Proof.
  induction ls as [|l ls IH]; [done|].
  destruct ls as [|l' ls]; [apply buildArg_literal|].
  change (map lit_arg (l :: l' :: ls))
    with (lit_arg l :: lit_arg l' :: map lit_arg ls).
  rewrite buildArgs_cons.
  change (lit_arg l' :: map lit_arg ls) with (map lit_arg (l' :: ls)).
  destruct evalLeftToRight; unfold bind;
    rewrite ?buildArg_literal, ?IH, ?buildArg_literal; unfold ret;
    f_equal; symmetry; apply join_cons.
Qed.

(** X2.  For arguments that are numbers and raw strings [buildCall] always
    returns, leaves the context as it is, and the text is the function
    name, an opening parenthesis, the texts of the arguments with a comma
    and a space between neighbours, and a closing parenthesis; this is so
    for either order in which the compiler evaluates the operands in
    [buildArgs]. *)
Theorem buildCall_literals (funcname : string) (ls : list Literal)
    (c : CodeSquashContext) :
  buildCall funcname (map lit_arg ls) c =
  Ok (funcname +:+ "(" +:+ join ", " (map lit_text ls) +:+ ")") c.
Proof. unfold buildCall, bind. by rewrite buildArgs_literals. Qed.

Lemma join_snoc_cons sep (l1 : list string) (y : string) (l2 : list string) :
  join sep (l1 ++ y :: l2) =
  match l1 with
  | [] => join sep (y :: l2)
  | _ => join sep l1 +:+ sep +:+ join sep (y :: l2)
  end.
Proof.
  induction l1 as [|x l1 IH]; [done|].
  destruct l1 as [|x' l1]; [done|].
  change ((x :: x' :: l1) ++ y :: l2) with (x :: x' :: (l1 ++ y :: l2)).
  rewrite join_cons.
  change (x' :: (l1 ++ y :: l2)) with ((x' :: l1) ++ y :: l2).
  rewrite IH, (join_cons sep x x' l1). by rewrite !str_app_assoc.
Qed.

(** Joining is flat: a piece that is itself a joined list can be replaced by
    the list. *)
Lemma join_flatten sep (l1 : list string) (x : string) (xs l2 : list string) :
  join sep (l1 ++ [join sep (x :: xs)] ++ l2) =
  join sep (l1 ++ (x :: xs) ++ l2).
Proof.
  assert (Hmid : join sep ([join sep (x :: xs)] ++ l2) =
                 join sep ((x :: xs) ++ l2)).
  { destruct l2 as [|y l2]; [rewrite !app_nil_r; reflexivity|].
    change ([join sep (x :: xs)] ++ y :: l2)
      with (join sep (x :: xs) :: y :: l2).
    rewrite join_cons, (join_snoc_cons sep (x :: xs) y l2).
    by rewrite str_app_assoc. }
  destruct l1 as [|z l1]; [exact Hmid|].
  change ((z :: l1) ++ [join sep (x :: xs)] ++ l2)
    with ((z :: l1) ++ join sep (x :: xs) :: l2).
  change ((z :: l1) ++ (x :: xs) ++ l2)
    with ((z :: l1) ++ x :: (xs ++ l2)).
  rewrite !join_snoc_cons. f_equal. f_equal. exact Hmid.
Qed.

(** X3.  [buildCall] splices raw strings without quoting them: a raw string
    that holds the texts of one or more literal arguments, joined by a comma
    and a space, gives the same call as these arguments passed one by one,
    at any position of the argument list. *)
Theorem buildCall_raw_string_splices (funcname : string)
    (pre : list Literal) (x : Literal) (xs post : list Literal)
    (c : CodeSquashContext) :
  buildCall funcname
    (map lit_arg
       (pre ++ [LitString (join ", " (map lit_text (x :: xs)))] ++ post)) c =
  buildCall funcname (map lit_arg (pre ++ (x :: xs) ++ post)) c.
Proof.
  rewrite !buildCall_literals, !map_app.
  change (map lit_text [LitString (join ", " (map lit_text (x :: xs)))])
    with [join ", " (lit_text x :: map lit_text xs)].
  change (map lit_text (x :: xs)) with (lit_text x :: map lit_text xs).
  by rewrite (join_flatten ", ").
Qed.

Lemma buildArg_unproxy (a : Arg) : buildArg (unproxy a) = buildArg a.
Proof. by destruct a. Qed.

Lemma buildArgs_unproxy (args : list Arg) c :
  buildArgs (map unproxy args) c = buildArgs args c.
Proof.
  revert c. induction args as [|a args IH]; intros c; [done|].
  destruct args as [|b args]; [simpl; by rewrite buildArg_unproxy|].
  change (map unproxy (a :: b :: args))
    with (unproxy a :: unproxy b :: map unproxy args).
  rewrite !buildArgs_cons.
  change (unproxy b :: map unproxy args) with (map unproxy (b :: args)).
  rewrite buildArg_unproxy. destruct evalLeftToRight; unfold bind.
  - destruct (buildArg a c) as [x c1|e c1]; [|done]. rewrite IH.
    by destruct (buildArgs (b :: args) c1).
  - rewrite IH. by destruct (buildArgs (b :: args) c).
Qed.

(** X4.  A proxy argument stands for its node: replacing every
    [RooTemplateProxy] among the arguments of [buildCall] by the node it
    refers to changes neither the result, be it a text or an exception, nor
    the context that the call leaves. *)
Theorem buildCall_proxy_as_node (funcname : string) (args : list Arg)
    (c : CodeSquashContext) :
  buildCall funcname (map unproxy args) c = buildCall funcname args c.
Proof. unfold buildCall, bind. by rewrite buildArgs_unproxy. Qed.

Lemma pretty_Z_of_N (n : N) : pretty (Z.of_N n) = pretty n.
Proof. by destruct n. Qed.

(** X5.  The three integer overloads of [buildArg] write a value the same
    way and different values differently: an [int] and an [unsigned int]
    give the same text exactly when they hold the same number, [unsigned
    int] and [long unsigned int] of the same value give the same text, and
    two [int] arguments with the same text are equal. *)
Theorem buildArg_integers (x y : Z) (n : N) (c : CodeSquashContext) :
  (buildArg (ArgInt x) c = buildArg (ArgUInt n) c ↔ x = Z.of_N n) ∧
  buildArg (ArgUInt n) c = buildArg (ArgULong n) c ∧
  (buildArg (ArgInt x) c = buildArg (ArgInt y) c ↔ x = y).
Proof.
  simpl. unfold ret. split; [|split; [done|]].
  - split.
    + intros Heq. inversion Heq as [Hp]. rewrite <- pretty_Z_of_N in Hp.
      by apply (inj pretty).
    + intros ->. by rewrite pretty_Z_of_N.
  - split.
    + intros Heq. inversion Heq as [Hp]. by apply (inj pretty).
    + by intros ->.
Qed.

Lemma mapM_length {A B} (f : A → M B) (l : list A) c ys c' :
  mapM f l c = Ok ys c' → length ys = length l.
Proof.
  revert c ys c'. induction l as [|x l IH]; intros c ys c' Hm; simpl in Hm.
  - by inversion Hm.
  - unfold bind at 1 in Hm. destruct (f x c) as [y c1|]; [|done].
    unfold bind at 1 in Hm.
    destruct (mapM f l c1) as [ys' c2|] eqn:Hl; [|done].
    inversion Hm; subst. simpl. f_equal. by eapply IH.
Qed.

Lemma mapM_snoc {A B} (f : A → M B) (l : list A) (a : A) c :
  mapM f (l ++ [a]) c =
  (let* ys := mapM f l in let* y := f a in ret (ys ++ [y])) c.
Proof.
  revert c. induction l as [|x l IH]; intros c; simpl.
  - unfold bind, ret. by destruct (f a c).
  - unfold bind, ret in *. destruct (f x c) as [y c1|]; [|done].
    rewrite IH. destruct (mapM f l c1) as [ys c2|]; [|done].
    by destruct (f a c2).
Qed.

Lemma buildArgs_left_to_right (args : list Arg) c :
  evalLeftToRight = true →
  buildArgs args c =
  (let* strs := mapM buildArg args in ret (join ", " strs)) c.
Proof.
  intros Hltr. revert c. induction args as [|a args IH]; intros c; [done|].
  destruct args as [|b args].
  - simpl. unfold bind, ret. by destruct (buildArg a c).
  - rewrite buildArgs_cons, Hltr.
    change (mapM buildArg (a :: b :: args))
      with (let* y := buildArg a in
            let* ys := mapM buildArg (b :: args) in ret (y :: ys)).
    unfold bind, ret in *. destruct (buildArg a c) as [x c1|]; [|done].
    rewrite IH.
    destruct (mapM buildArg (b :: args) c1) as [ys c2|] eqn:Hm; [|done].
    apply mapM_length in Hm. destruct ys as [|y ys]; [done|].
    by rewrite join_cons.
Qed.

Lemma buildArgs_right_to_left (args : list Arg) c :
  evalLeftToRight = false →
  buildArgs args c =
  (let* strs := mapM buildArg (rev args) in ret (join ", " (rev strs))) c.
Proof.
  intros Hrtl. revert c. induction args as [|a args IH]; intros c; [done|].
  destruct args as [|b args].
  - simpl. unfold bind, ret. by destruct (buildArg a c).
  - rewrite buildArgs_cons, Hrtl.
    change (rev (a :: b :: args)) with (rev (b :: args) ++ [a]).
    pose proof (mapM_snoc buildArg (rev (b :: args)) a c) as Hs.
    unfold bind, ret in *. rewrite Hs, IH.
    destruct (mapM buildArg (rev (b :: args)) c) as [ys c1|] eqn:Hm;
      [|done].
    destruct (buildArg a c1) as [x c2|]; [|done].
    f_equal. rewrite rev_app_distr.
    change (rev [x] ++ rev ys) with (x :: rev ys).
    apply mapM_length in Hm. rewrite length_rev in Hm.
    destruct (rev ys) as [|y ys'] eqn:Hr.
    { apply (f_equal length) in Hr. rewrite length_rev in Hr.
      simpl in *. lia. }
    by rewrite join_cons.
Qed.

(** X6.  [buildArgs] converts every argument exactly once, one after the
    other, and joins the texts: with a compiler that evaluates the left
    operand of [+] first the conversions run from the first argument to the
    last, otherwise from the last to the first; in both cases the first
    conversion that throws ends the call, and the texts stand in the order
    of the arguments. *)
Theorem buildArgs_converts_each_once (args : list Arg)
    (c : CodeSquashContext) :
  (evalLeftToRight = true →
   buildArgs args c =
   (let* strs := mapM buildArg args in ret (join ", " strs)) c) ∧
  (evalLeftToRight = false →
   buildArgs args c =
   (let* strs := mapM buildArg (rev args) in ret (join ", " (rev strs))) c).
Proof.
  split; [apply buildArgs_left_to_right | apply buildArgs_right_to_left].
Qed.

End Header.

Section HeaderExamples.
Local Existing Instances example_target example_framework example_compiler.

Example ex_emit_pieces :
  _code (ctx_of (run (emitAll ["a = 1;"; ""; "b = 2;"]) ex_final)) =
  _code ex_final +:+ "a = 1;b = 2;".
Proof. vm_compute. reflexivity. Qed.

Example ex_literals :
  text_of (buildCall "g" (map lit_arg [LitInt (-3); LitString ""; LitULong 42;
                                       LitDouble 5]) ex_final) =
  Some "g(-3, , 42, 5.0)".
Proof. vm_compute. reflexivity. Qed.

Example ex_splice :
  text_of (buildCall "g" [ArgString "1, x"; ArgInt 2] ex_final) =
  text_of (buildCall "g" [ArgInt 1; ArgString "x"; ArgInt 2] ex_final).
Proof. vm_compute. reflexivity. Qed.

Lemma buildArgs_converts_each_once_witness :
  buildArgs (cc := example_compiler) ex_args ex_lists =
    (let* strs := mapM buildArg ex_args in ret (join ", " strs)) ex_lists ∧
  buildArgs (cc := example_compiler_rtl) ex_args ex_lists =
    (let* strs := mapM buildArg (rev ex_args) in
     ret (join ", " (rev strs))) ex_lists.
Proof.
  split.
  - apply (proj1 (buildArgs_converts_each_once (cc := example_compiler)
                    ex_args ex_lists)). reflexivity.
  - apply (proj2 (buildArgs_converts_each_once (cc := example_compiler_rtl)
                    ex_args ex_lists)). reflexivity.
Defined.

(** Two lists without an array yet: the order of evaluation decides which
    of them gets the first temporary. *)
Example ex_order :
  text_of (buildCall (cc := example_compiler) "g"
             [ArgCollection ex_l1; ArgCollection ex_l2] ex_lists) =
  Some "g(t0, t1)" ∧
  text_of (buildCall (cc := example_compiler_rtl) "g"
             [ArgCollection ex_l1; ArgCollection ex_l2] ex_lists) =
  Some "g(t1, t0)".
Proof. vm_compute. done. Qed.

Example ex_proxy :
  text_of (buildCall "g" [ArgProxy ex_a; ArgAbsArg ex_b] ex_lists) =
  Some "g(x, y)".
Proof. vm_compute. reflexivity. Qed.

End HeaderExamples.
